(** * Mate assemblies: a shallow embedding of [massembly.py]

    The class [MAssembly] of [jupyter_cadquery/mate_assembly/massembly.py]
    is a tree of named parts.  Every node carries a geometry object, a pose
    relative to its parent, its children, a registry of named mates, the
    list of mate names declared on it, an optional origin mate and the
    one-shot [relocated] flag.

    The geometry kernel (poses, shapes, workplanes) and the class [Mate]
    are consumed through a handful of operations only; they are the fields
    of the class [Kernel].  A Python reference to a node is a path of child
    indices relative to the receiver of the method; in-place mutation of a
    node is an update of the receiver at such a path.  A method returns the
    receiver after the call, the lines it printed, and its value or the
    exception it raised. *)

From stdpp Require Import base option list strings pretty.
From Stdlib Require Import Ascii String ZArith Lia.

Local Open Scope string_scope.
Local Open Scope list_scope.

(** ** Python string primitives used by the source *)

(** [s.split(sep)] for a separator of one character: the pieces between the
    occurrences of [sep]; the result is never empty. *)
Fixpoint split (sep : ascii) (s : string) : list string :=
  match s with
  | EmptyString => [EmptyString]
  | String c s' =>
      if Ascii.eqb c sep then EmptyString :: split sep s'
      else match split sep s' with
           | piece :: pieces => String c piece :: pieces
           | [] => [String c EmptyString]
           end
  end.

(** [sep.join(l)]. *)
Fixpoint join (sep : string) (l : list string) : string :=
  match l with
  | [] => EmptyString
  | [piece] => piece
  | piece :: rest => piece ++ sep ++ join sep rest
  end.

(** The path separator of selectors. *)
Definition gt : ascii := ">"%char.

(** [c in s]. *)
Fixpoint has_char (c : ascii) (s : string) : bool :=
  match s with
  | EmptyString => false
  | String c' s' => Ascii.eqb c' c || has_char c s'
  end.

(** A well-formed path segment: not empty, and free of the separator. *)
Definition segment (s : string) : Prop := s <> EmptyString /\ has_char gt s = false.

(** ** Python dictionaries

    A [dict] keeps its keys in insertion order and [items()] walks them in
    that order, so the registry is an association list: assigning to a key
    that is present replaces the value in place, a new key goes last. *)
Section Dict.
Context {V : Type}.

Fixpoint dict_get (d : list (string * V)) (k : string) : option V :=
  match d with
  | [] => None
  | (k', v) :: d' => if String.eqb k' k then Some v else dict_get d' k
  end.

Fixpoint dict_set (d : list (string * V)) (k : string) (v : V) : list (string * V) :=
  match d with
  | [] => [(k, v)]
  | (k', v') :: d' =>
      if String.eqb k' k then (k', v) :: d' else (k', v') :: dict_set d' k v
  end.
End Dict.

(** ** Exceptions and results *)

Inductive exn : Type :=
| KeyError (key : string)
| AttributeError.

Inductive result (A : Type) : Type :=
| Ok (a : A)
| Raise (e : exn).
Arguments Ok {A} a.
Arguments Raise {A} e.

(** A reference to a node, relative to the receiver: the indices of the
    children to descend through.  [[]] is the receiver itself. *)
Definition ref : Type := list nat.

(** ** The geometry kernel

    The kernel of [cadquery] (poses, shapes, workplanes) as far as the
    source uses it: [Location()], [l1 * l2], [l.inverse], [shape.moved(l)],
    [workplane.val()] and [Workplane(shape)]; and the class [Mate], which
    the source imports from the module [mate] next to it and of which it
    uses the attribute [loc] and the method [moved(l)].  A mate is a value:
    [moved] returns a new mate and leaves the one it is called on as it
    is. *)
Class Kernel : Type := {
  Location : Type;
  Shape : Type;
  Workplane : Type;
  Mate : Type;
  Location_identity : Location;
  Location_mul : Location -> Location -> Location;
  Location_inverse : Location -> Location;
  Shape_moved : Shape -> Location -> Shape;
  Workplane_val : Workplane -> Shape;
  Workplane_new : Shape -> Workplane;
  Mate_loc : Mate -> Location;
  Mate_moved : Mate -> Location -> Mate
}.

Section MateAssembly.

Context {K : Kernel}.

(** A registry entry, the dictionary [{"mate": mate, "assembly": selector}]. *)
Record MateEntry : Type := mkMateEntry {
  entry_mate : Mate;
  entry_assembly : string
}.

(** The object state of an [MAssembly]: [name], [obj], [loc] and
    [children] come from the base class, the other four from
    [MAssembly.__init__]. *)
#[local] Unset Elimination Schemes.
Inductive MAssembly : Type := mkMAssembly {
  name : string;
  obj : option Workplane;
  loc : Location;
  children : list MAssembly;
  mates : list (string * MateEntry);
  matelist : list string;
  origin : option Mate;
  relocated : bool
}.
#[local] Set Elimination Schemes.

(** *** Attribute assignment *)

Definition with_obj (o : option Workplane) (a : MAssembly) : MAssembly :=
  mkMAssembly (name a) o (loc a) (children a) (mates a) (matelist a) (origin a) (relocated a).
Definition with_loc (l : Location) (a : MAssembly) : MAssembly :=
  mkMAssembly (name a) (obj a) l (children a) (mates a) (matelist a) (origin a) (relocated a).
Definition with_children (cs : list MAssembly) (a : MAssembly) : MAssembly :=
  mkMAssembly (name a) (obj a) (loc a) cs (mates a) (matelist a) (origin a) (relocated a).
Definition with_mates (ms : list (string * MateEntry)) (a : MAssembly) : MAssembly :=
  mkMAssembly (name a) (obj a) (loc a) (children a) ms (matelist a) (origin a) (relocated a).
Definition with_matelist (ml : list string) (a : MAssembly) : MAssembly :=
  mkMAssembly (name a) (obj a) (loc a) (children a) (mates a) ml (origin a) (relocated a).
Definition with_origin (o : option Mate) (a : MAssembly) : MAssembly :=
  mkMAssembly (name a) (obj a) (loc a) (children a) (mates a) (matelist a) o (relocated a).
Definition with_relocated (b : bool) (a : MAssembly) : MAssembly :=
  mkMAssembly (name a) (obj a) (loc a) (children a) (mates a) (matelist a) (origin a) b.

(** *** References *)

(** The node a reference points to. *)
Fixpoint node_at (p : ref) (self : MAssembly) : option MAssembly :=
  match p with
  | [] => Some self
  | i :: p' =>
      match children self !! i with
      | Some c => node_at p' c
      | None => None
      end
  end.

(** In-place mutation of the node a reference points to. *)
Fixpoint update_at (p : ref) (f : MAssembly -> MAssembly) (self : MAssembly) : MAssembly :=
  match p with
  | [] => f self
  | i :: p' => with_children (alter (update_at p' f) i (children self)) self
  end.

(** *** find_assembly *)

(** The reference to the [k]-th element of [[self] + self.children]. *)
Definition candidate_ref (k : nat) : ref :=
  match k with
  | 0 => []
  | S i => [i]
  end.

(** [find_assembly] returns a node object: here the reference to it
    together with the node it designates; [return self] is the reference
    [[]].  The first element of [[self] + self.children] whose name is
    [selectors[0]] is entered with the rest of the selector, and no other
    candidate is tried after it.  The recursion is on a selector that gets
    shorter; [fuel] bounds its length, and [find_assembly] supplies the
    length itself. *)
Fixpoint find_assembly_aux (fuel : nat) (self : MAssembly) (selector : string)
  : option (ref * MAssembly) :=
  if decide (selector = EmptyString) then Some ([], self)
  else
    match fuel with
    | 0 => None
    | S fuel' =>
        let selectors := split gt selector in
        match list_find (fun a => name a = hd EmptyString selectors) (self :: children self) with
        | Some (k, a) =>
            (fun r => (candidate_ref k ++ r.1, r.2))
              <$> find_assembly_aux fuel' a (join ">" (tail selectors))
        | None => None
        end
    end.

Definition find_assembly (self : MAssembly) (selector : string) : option (ref * MAssembly) :=
  find_assembly_aux (String.length selector) self selector.

(** *** Outcomes of the mutating methods

    The receiver after the call, the lines printed, and the value
    returned or the exception raised. *)
Record outcome (A : Type) : Type := mkOutcome {
  post : MAssembly;
  printed : list string;
  ret : result A
}.
Arguments mkOutcome {A} _ _ _.
Arguments post {A} _.
Arguments printed {A} _.
Arguments ret {A} _.

(** *** mate

    When the selector resolves: [self.mates[name] = ...], then
    [assembly.matelist.append(name)], then [assembly.origin = mate] under
    [is_origin].  There is no [else].  [return self] is the reference
    [[]]. *)

Definition mate (mate_name selector : string) (m : Mate) (is_origin : bool)
    (self : MAssembly) : outcome ref :=
  match find_assembly self selector with
  | Some (p, _) =>
      let self1 :=
        with_mates (dict_set (mates self) mate_name (mkMateEntry m selector)) self in
      let self2 :=
        update_at p (fun a => with_matelist (matelist a ++ [mate_name]) a) self1 in
      let self3 :=
        if is_origin then update_at p (with_origin (Some m)) self2 else self2 in
      mkOutcome self3 [] (Ok [])
  | None => mkOutcome self [] (Ok [])
  end.

(** *** set_origin *)

(** [for c in cs: f(c)], each element mutated in place, stopping at the
    first exception. *)
Definition for_each {A : Type} (f : A -> A * result unit) : list A -> list A * result unit :=
  fix go (l : list A) : list A * result unit :=
    match l with
    | [] => ([], Ok tt)
    | x :: l' =>
        match f x with
        | (x', Ok _) => let '(l'', r) := go l' in (x' :: l'', r)
        | (x', Raise e) => (x' :: l', Raise e)
        end
    end.

(** The body of the [if self.origin is not None] statement;
    [self.obj.val()] raises when [self.obj] is [None]. *)
Definition recentre (self : MAssembly) : result MAssembly :=
  match origin self with
  | Some o =>
      match obj self with
      | Some w =>
          Ok (with_loc Location_identity
                (with_obj
                   (Some (Workplane_new
                            (Shape_moved (Workplane_val w) (Location_inverse (Mate_loc o)))))
                   self))
      | None => Raise AttributeError
      end
  | None => Ok self
  end.

(** The node first, then its children in order. *)
Fixpoint set_origin (self : MAssembly) : MAssembly * result unit :=
  match recentre self with
  | Raise e => (self, Raise e)
  | Ok self1 =>
      let '(cs, r) := for_each set_origin (children self) in
      (with_children cs self1, r)
  end.

(** *** relocate *)

(** The loop [for _, v in self.mates.items()]: [items] are the entries
    still to visit, [i] the position of the first of them.  An entry is
    assigned to at its own turn only, so it is read here as it was when the
    loop started.  [assy.origin] on [None] raises [AttributeError]. *)
Fixpoint relocate_items (items : list (string * MateEntry)) (i : nat) (self : MAssembly)
  : MAssembly * result unit :=
  match items with
  | [] => (self, Ok tt)
  | (k, v) :: items' =>
      match find_assembly self (entry_assembly v) with
      | None => (self, Raise AttributeError)
      | Some (_, assy) =>
          let self1 :=
            match origin assy with
            | Some o =>
                let v' :=
                  mkMateEntry (Mate_moved (entry_mate v) (Location_inverse (Mate_loc o)))
                              (entry_assembly v) in
                with_mates (<[i := (k, v')]> (mates self)) self
            | None => self
            end in
          relocate_items items' (S i) self1
      end
  end.

(** The flag tested and set is the one of the receiver. *)
Definition relocate (self : MAssembly) : outcome unit :=
  if relocated self then mkOutcome self ["already relocated"] (Ok tt)
  else
    match set_origin self with
    | (self1, Raise e) => mkOutcome self1 [] (Raise e)
    | (self1, Ok _) =>
        match relocate_items (mates self1) 0 self1 with
        | (self2, Raise e) => mkOutcome self2 [] (Raise e)
        | (self2, Ok _) => mkOutcome (with_relocated true self2) [] (Ok tt)
        end
    end.

(** *** assemble

    [self.mates[mate_obj]] raises [KeyError] on an unknown name;
    [self.mates[mate_target]] is evaluated in the [else] branch only. *)

Definition assemble (mate_obj mate_target : string) (self : MAssembly) : outcome ref :=
  match dict_get (mates self) mate_obj with
  | None => mkOutcome self [] (Raise (KeyError mate_obj))
  | Some e_obj =>
      let m_obj := entry_mate e_obj in
      match find_assembly self (entry_assembly e_obj) with
      | None => mkOutcome self [("No assembly for '" ++ mate_obj ++ "'")%string] (Ok [])
      | Some (p, _) =>
          match dict_get (mates self) mate_target with
          | None => mkOutcome self [] (Raise (KeyError mate_target))
          | Some e_target =>
              let m_target := entry_mate e_target in
              mkOutcome
                (update_at p
                   (with_loc (Location_mul (Mate_loc m_target)
                                           (Location_inverse (Mate_loc m_obj))))
                   self)
                [] (Ok [])
          end
      end
  end.


(** ** Notions used to state the properties *)

(** What [find_assembly] looks at, and the origins: every other attribute
    is reset. *)
Fixpoint skeleton (a : MAssembly) : MAssembly :=
  mkMAssembly (name a) None Location_identity (map skeleton (children a)) [] []
              (origin a) false.

(** [name_path self segs p n]: the names [segs] lead from [self] to the
    node [n], at reference [p], each name borne by exactly one of the
    candidates [[self] + self.children] of the node reached so far. *)
Inductive name_path : MAssembly -> list string -> ref -> MAssembly -> Prop :=
| name_path_here (self : MAssembly) : name_path self [] [] self
| name_path_step (self : MAssembly) (seg : string) (segs : list string)
    (k : nat) (a : MAssembly) (p : ref) (n : MAssembly) :
    (self :: children self) !! k = Some a ->
    name a = seg ->
    (forall j b, (self :: children self) !! j = Some b -> name b = seg -> j = k) ->
    name_path a segs p n ->
    name_path self (seg :: segs) (candidate_ref k ++ p) n.

(** Every node that has an origin owns a geometry object. *)
Definition origins_have_obj (self : MAssembly) : Prop :=
  forall p n, node_at p self = Some n -> origin n <> None -> obj n <> None.

(** Two nodes agree on every attribute but [children]. *)
Definition same_attributes (a b : MAssembly) : Prop :=
  name a = name b /\ obj a = obj b /\ loc a = loc b /\ mates a = mates b /\
  matelist a = matelist b /\ origin a = origin b /\ relocated a = relocated b.

End MateAssembly.

Arguments mkOutcome {K A} _ _ _.
Arguments post {K A} _.
Arguments printed {K A} _.
Arguments ret {K A} _.

(** ** Selection and display

    What the remaining functions of the source consume: the selection
    methods of a workplane, [getattr(tmp, kind)(criterion)] on a fresh
    workplane holding the object, which may raise; the property [shapes] of
    the base class; [to_edge()] of a mate; and [rgb(assy)], which reads the
    colour attribute of the base class and formats its floating-point
    channels. *)
Class Display (K : Kernel) : Type := {
  Point : Type;
  Edge : Type;
  Workplane_select : Workplane -> string -> string + Point -> result Workplane;
  Assembly_shapes : option Workplane -> list Shape;
  Mate_to_edge : Mate -> Edge;
  rgb : MAssembly -> string
}.

Section Presentation.

Context {K : Kernel} {D : Display K}.

(** [Selector = Tuple[str, Union[str, Tuple[float, float]]]]: a selection
    kind and a criterion, a selector string or a point. *)
Definition Selector : Type := string * (string + Point).

(** *** find_obj and find *)

(** The loop [for selector in obj_selectors], each selection applied to the
    result of the one before. *)
Fixpoint select_all (o : Workplane) (obj_selectors : list Selector) : result Workplane :=
  match obj_selectors with
  | [] => Ok o
  | (kind, criterion) :: rest =>
      match Workplane_select o kind criterion with
      | Ok o' => select_all o' rest
      | Raise e => Raise e
      end
  end.

(** The loop is entered when selectors are given and the node owns a
    geometry; otherwise [assembly.obj] is returned as it is. *)
Definition find_obj (assembly : MAssembly) (obj_selectors : option (list Selector))
  : result (option Workplane) :=
  match obj_selectors, obj assembly with
  | Some sels, Some o =>
      match select_all o sels with
      | Ok o' => Ok (Some o')
      | Raise e => Raise e
      end
  | _, _ => Ok (obj assembly)
  end.

(** [print()] writes one empty line.  The selectors of [find] are its
    variadic arguments, a tuple that is never [None]. *)
Definition find (selector : string) (obj_selectors : list Selector) (self : MAssembly)
  : outcome (option Workplane) :=
  match find_assembly self selector with
  | None => mkOutcome self [EmptyString] (Ok None)
  | Some (_, assembly) => mkOutcome self [] (find_obj assembly (Some obj_selectors))
  end.

(** *** The display tree

    The objects [_convert] builds: [Part(shape, name, color=...)] and
    [Parts(list, name)], with the arguments they are given. *)
Inductive Geometry : Type :=
| GWorkplane (w : Workplane)
| GEdge (e : Edge).

Inductive Colour : Type :=
| ColourCode (code : string)
| MATE_COLOR.

#[local] Unset Elimination Schemes.
Inductive Item : Type :=
| Part (shape : option Geometry) (part_name : option string) (color : option Colour)
| Parts (items : list Item) (parts_name : string).
#[local] Set Elimination Schemes.

(** [[f(x) for x in l]], the first exception ending the comprehension. *)
Definition map_result {A B : Type} (f : A -> result B) : list A -> result (list B) :=
  fix go (l : list A) : result (list B) :=
    match l with
    | [] => Ok []
    | x :: l' =>
        match f x with
        | Ok y =>
            match go l' with
            | Ok ys => Ok (y :: ys)
            | Raise e => Raise e
            end
        | Raise e => Raise e
        end
    end.

(** The parts of the shapes of a node, named [name_i]. *)
Definition shape_parts (assy : MAssembly) (l : Location) : list Item :=
  imap (fun i shape =>
          Part (Some (GWorkplane (Workplane_new (Shape_moved shape l))))
               (Some (name assy ++ "_" ++ pretty i)%string)
               (Some (ColourCode (rgb assy))))
       (Assembly_shapes (obj assy)).

(** The mate markers of a node; [top.mates[mate]] raises [KeyError]. *)
Definition mate_part (top : MAssembly) (l : Location) (mate_name : string) : result Item :=
  match dict_get (mates top) mate_name with
  | Some e =>
      Ok (Part (Some (GEdge (Mate_to_edge (Mate_moved (entry_mate e) l))))
               (Some mate_name) (Some MATE_COLOR))
  | None => Raise (KeyError mate_name)
  end.

Fixpoint _convert (assy top : MAssembly) (l : option Location) (show_mates : bool)
  : result Item :=
  let l :=
    match l with
    | None => loc assy
    | Some l => Location_mul l (loc assy)
    end in
  let parent := shape_parts assy l in
  let parent :=
    if show_mates then
      match matelist assy with
      | [] => Ok parent
      | _ :: _ =>
          match map_result (mate_part top l) (matelist assy) with
          | Ok markers => Ok (parent ++ [Parts markers "mates"])
          | Raise e => Raise e
          end
      end
    else Ok parent in
  match parent with
  | Raise e => Raise e
  | Ok parent =>
      match map_result (fun c => _convert c top (Some l) show_mates) (children assy) with
      | Ok shown => Ok (Parts (parent ++ shown) (name assy))
      | Raise e => Raise e
      end
  end.

(** [jc_show] hands [_convert(assy, assy, mates=mates)] to the viewer; its
    own [loc] argument is not used. *)
Definition jc_show (assy : MAssembly) (l : option Location) (show_mates : bool)
  : result Item :=
  _convert assy assy None show_mates.

(** The parts [jc_show_part] hands to the viewer: the geometry of the
    node, then one marker for each of its mates. *)
Definition jc_show_part (assy top : MAssembly) (l : option Location) : result (list Item) :=
  match l with
  | None =>
      match map_result (fun m => match dict_get (mates top) m with
                                 | Some e => Ok (entry_mate e)
                                 | None => Raise (KeyError m)
                                 end) (matelist assy) with
      | Ok ms =>
          Ok (Part (GWorkplane <$> obj assy) (Some (name assy)) None
              :: map (fun m => Part (Some (GEdge (Mate_to_edge m))) None (Some MATE_COLOR)) ms)
      | Raise e => Raise e
      end
  | Some l =>
      match obj assy with
      | None => Raise AttributeError
      | Some o =>
          match map_result (fun m => match dict_get (mates top) m with
                                     | Some e => Ok (Mate_moved (entry_mate e) l)
                                     | None => Raise (KeyError m)
                                     end) (matelist assy) with
          | Ok ms =>
              Ok (Part (Some (GWorkplane (Workplane_new (Shape_moved (Workplane_val o) l))))
                       (Some (name assy)) None
                  :: map (fun m => Part (Some (GEdge (Mate_to_edge m))) None (Some MATE_COLOR))
                         ms)
          | Raise e => Raise e
          end
      end
  end.

(** *** Notions used to state further properties *)

(** [first_match_path self segs p n]: the names [segs] lead from [self] to
    [n], at reference [p], when each name is looked up as the source does:
    the first of the candidates [[self] + self.children] that bears it. *)
Inductive first_match_path : MAssembly -> list string -> ref -> MAssembly -> Prop :=
| first_match_here (self : MAssembly) : first_match_path self [] [] self
| first_match_step (self : MAssembly) (seg : string) (segs : list string)
    (k : nat) (a : MAssembly) (p : ref) (n : MAssembly) :
    (self :: children self) !! k = Some a ->
    name a = seg ->
    (forall j b, (self :: children self) !! j = Some b -> j < k -> name b <> seg) ->
    first_match_path a segs p n ->
    first_match_path self (seg :: segs) (candidate_ref k ++ p) n.

(** The names and the shape of the tree, which is all that [find_assembly]
    looks at: every other attribute is reset. *)
Fixpoint outline (a : MAssembly) : MAssembly :=
  mkMAssembly (name a) None Location_identity (map outline (children a)) [] [] None false.

(** Every selector of the registry resolves. *)
Definition registry_resolves (self : MAssembly) : Prop :=
  forall i k v, mates self !! i = Some (k, v) ->
    is_Some (find_assembly self (entry_assembly v)).

(** Every mate name declared on a node of [self] is a key of the registry
    of [top]. *)
Definition matelists_registered (top self : MAssembly) : Prop :=
  forall q n m, node_at q self = Some n -> m ∈ matelist n ->
    is_Some (dict_get (mates top) m).

(** The pose [_convert] reaches the node at [p] with, when it enters
    [self] with the pose [l]: the poses of the nodes on the way, composed
    from the left. *)
Fixpoint pose_along (l : Location) (p : ref) (self : MAssembly) : option Location :=
  match p with
  | [] => Some l
  | i :: p' =>
      match children self !! i with
      | Some c => pose_along (Location_mul l (loc c)) p' c
      | None => None
      end
  end.

(** All the parts of a display tree. *)
Fixpoint parts_of (it : Item) : list Item :=
  match it with
  | Part _ _ _ => [it]
  | Parts items _ => List.concat (map parts_of items)
  end.

End Presentation.

(** ** A concrete kernel: translations along a line

    Poses are integer offsets, composed by addition; shapes, workplanes and
    mates are positions. *)
Definition line_kernel : Kernel := {|
  Location := Z;
  Shape := Z;
  Workplane := Z;
  Mate := Z;
  Location_identity := 0%Z;
  Location_mul := Z.add;
  Location_inverse := Z.opp;
  Shape_moved := Z.add;
  Workplane_val := fun w => w;
  Workplane_new := fun s => s;
  Mate_loc := fun m => m;
  Mate_moved := Z.add
|}.

Definition part : string -> option Z -> Z -> list (@MAssembly line_kernel) ->
    list (string * @MateEntry line_kernel) -> list string -> option Z -> bool ->
    @MAssembly line_kernel :=
  @mkMAssembly line_kernel.

Definition entry : Z -> string -> @MateEntry line_kernel := @mkMateEntry line_kernel.

(** The scenario of two arms under a root, and its two wrist mates. *)
Definition arms0 : @MAssembly line_kernel :=
  part "root" None 0%Z
    [part "armL" (Some 5%Z) 1%Z [] [] [] None false;
     part "armR" (Some 7%Z) 2%Z [] [] [] None false]
    [] [] None false.

Definition arms : @MAssembly line_kernel :=
  post (@mate line_kernel "wristR" "armR" 10%Z false
          (post (@mate line_kernel "wristL" "armL" 0%Z false arms0))).

(** A root with two arms, the right one with a hand without geometry. *)
Definition bench0 : @MAssembly line_kernel :=
  part "root" None 0%Z
    [part "armL" (Some 5%Z) 1%Z [] [] [] None false;
     part "armR" (Some 7%Z) 2%Z [part "hand" None 3%Z [] [] [] None false] [] [] None false]
    [] [] None false.

(** The right arm has its wrist as origin and a second mate; the left arm
    has a mate and no origin. *)
Definition bench : @MAssembly line_kernel :=
  post (@mate line_kernel "palm" "armL" 6%Z false
    (post (@mate line_kernel "tip" "root>armR" 9%Z false
      (post (@mate line_kernel "wrist" "armR" 4%Z true bench0))))).

(** The hand, which owns no geometry, is given an origin. *)
Definition ghost : @MAssembly line_kernel :=
  post (@mate line_kernel "grip" "armR>hand" 4%Z true bench0).

(** Two legs of the same name under a table. *)
Definition table : @MAssembly line_kernel :=
  part "table" None 0%Z
    [part "top" (Some 1%Z) 0%Z [] [] [] None false;
     part "leg" (Some 2%Z) 0%Z [] [] [] None false;
     part "leg" (Some 3%Z) 0%Z [] [] [] None false]
    [] [] None false.

(** A registry entry whose selector names no node of the tree. *)
Definition stale : @MAssembly line_kernel :=
  part "root" None 0%Z [] [("A", entry 0%Z "gone")] [] None false.

(** A display for the line kernel: a selection offsets the position by the
    length of its selector string or moves it to the point given; the kinds
    are those of the workplane. *)
Definition line_select (w : Z) (kind : string) (criterion : string + Z) : result Z :=
  if bool_decide (kind ∈ ["faces"; "edges"; "vertices"]) then
    match criterion with
    | inl sel => Ok (w + Z.of_nat (String.length sel))%Z
    | inr pt => Ok pt
    end
  else Raise AttributeError.

Definition line_shapes (o : option Z) : list Z :=
  match o with
  | Some w => [w]
  | None => []
  end.

Definition line_display : Display line_kernel :=
  @Build_Display line_kernel Z Z line_select line_shapes (fun m : Z => m) (fun _ => "#aaa").

Section Properties.

Context {K : Kernel}.

(** ** Strings: splitting and joining *)

Lemma split_not_nil (sep : ascii) (s : string) : split sep s <> [].
Proof.
  destruct s as [|c s]; simpl; [done|].
  destruct (Ascii.eqb c sep); [done|]. by destruct (split sep s).
Qed.

Lemma join_cons (sep piece : string) (rest : list string) :
  rest <> [] -> join sep (piece :: rest) = (piece ++ sep ++ join sep rest)%string.
Proof. by destruct rest. Qed.

Lemma join_split (sep : ascii) (s : string) :
  join (String sep EmptyString) (split sep s) = s.
Proof.
  induction s as [|c s IH]; simpl; [done|].
  destruct (Ascii.eqb_spec c sep) as [->|Hne].
  - rewrite join_cons by apply split_not_nil. simpl. by rewrite IH.
  - pose proof (split_not_nil sep s) as Hnil.
    destruct (split sep s) as [|piece pieces]; [done|].
    destruct pieces as [|piece' pieces].
    + simpl in *. by rewrite IH.
    + rewrite join_cons by done. rewrite join_cons in IH by done.
      rewrite <- IH. reflexivity.
Qed.

Lemma length_string_app (s1 s2 : string) :
  String.length (s1 ++ s2) = String.length s1 + String.length s2.
Proof. induction s1 as [|c s1 IH]; simpl; [done|]. by rewrite IH. Qed.

(** What is left of a non-empty selector after its first segment is
    shorter than the selector. *)
Lemma rest_shorter (selector : string) :
  selector <> EmptyString ->
  String.length (join ">" (tail (split gt selector))) < String.length selector.
Proof.
  intros Hne. pose proof (join_split gt selector) as Hjs.
  pose proof (split_not_nil gt selector) as Hnil. unfold gt in *.
  destruct (split ">" selector) as [|piece pieces]; [done|]. simpl tail.
  destruct pieces as [|piece' pieces].
  - simpl in *. subst piece. destruct selector; [done|simpl; lia].
  - rewrite join_cons in Hjs by done. rewrite <- Hjs.
    rewrite !length_string_app. cbn [String.length]. lia.
Qed.

Lemma split_no_sep (sep : ascii) (s : string) :
  has_char sep s = false -> split sep s = [s].
Proof.
  induction s as [|c s IH]; simpl; [done|].
  intros [Hc Hs]%orb_false_iff. rewrite Hc, (IH Hs). done.
Qed.

Lemma split_app_sep (sep : ascii) (piece rest : string) :
  has_char sep piece = false ->
  split sep (piece ++ String sep rest) = piece :: split sep rest.
Proof.
  induction piece as [|c piece IH]; simpl.
  - intros _. by rewrite Ascii.eqb_refl.
  - intros [Hc Hs]%orb_false_iff. rewrite Hc, (IH Hs). done.
Qed.

Lemma split_join (sep : ascii) (segs : list string) :
  segs <> [] -> Forall (fun s => has_char sep s = false) segs ->
  split sep (join (String sep EmptyString) segs) = segs.
Proof.
  induction segs as [|seg segs IH]; [done|]. intros _ Hall.
  apply Forall_cons in Hall as [Hseg Hall].
  destruct segs as [|seg' segs].
  - simpl. by apply split_no_sep.
  - rewrite join_cons by done.
    change (split sep (seg ++ String sep (join (String sep EmptyString) (seg' :: segs)))
            = seg :: seg' :: segs).
    rewrite split_app_sep by done. by rewrite IH.
Qed.

Lemma join_segments_not_empty (seg : string) (segs : list string) :
  seg <> EmptyString -> join ">" (seg :: segs) <> EmptyString.
Proof.
  intros Hne. destruct segs; simpl; [done|].
  destruct seg; [done|]. simpl. done.
Qed.

(** ** Induction on assemblies *)

Lemma MAssembly_tree_ind (P : MAssembly -> Prop) :
  (forall n o l cs ms ml og r, Forall P cs -> P (mkMAssembly n o l cs ms ml og r)) ->
  forall a, P a.
Proof.
  intros step.
  refine (fix IH (a : MAssembly) : P a :=
            match a with
            | mkMAssembly n o l cs ms ml og r =>
                step n o l cs ms ml og r
                  ((fix all (cs : list MAssembly) : Forall P cs :=
                      match cs with
                      | [] => @List.Forall_nil _ P
                      | c :: cs' => @List.Forall_cons _ P c cs' (IH c) (all cs')
                      end) cs)
            end).
Qed.

(** ** find_assembly: the fuel is enough *)

Lemma find_assembly_aux_empty (fuel : nat) (self : MAssembly) :
  find_assembly_aux fuel self EmptyString = Some ([], self).
Proof. by destruct fuel. Qed.

Lemma find_assembly_aux_fuel (fuel1 fuel2 : nat) (self : MAssembly) (selector : string) :
  String.length selector <= fuel1 -> String.length selector <= fuel2 ->
  find_assembly_aux fuel1 self selector = find_assembly_aux fuel2 self selector.
Proof.
  revert fuel2 self selector.
  induction fuel1 as [|fuel1 IH]; intros fuel2 self selector H1 H2.
  - destruct selector; [|simpl in H1; lia].
    by rewrite !find_assembly_aux_empty.
  - destruct fuel2 as [|fuel2].
    + destruct selector; [|simpl in H2; lia].
      by rewrite !find_assembly_aux_empty.
    + cbn [find_assembly_aux]. cbv zeta.
      destruct (decide (selector = EmptyString)) as [|Hne]; [done|].
      destruct (list_find _ _) as [[k a]|]; [|done].
      pose proof (rest_shorter selector Hne).
      f_equal. apply IH; lia.
Qed.

(** The equation of the source: the four statements of [find_assembly]. *)
Lemma find_assembly_unfold (self : MAssembly) (selector : string) :
  find_assembly self selector =
    if decide (selector = EmptyString) then Some ([], self)
    else
      let selectors := split gt selector in
      match list_find (fun a => name a = hd EmptyString selectors) (self :: children self) with
      | Some (k, a) =>
          (fun r => (candidate_ref k ++ r.1, r.2))
            <$> find_assembly a (join ">" (tail selectors))
      | None => None
      end.
Proof.
  unfold find_assembly.
  destruct (decide (selector = EmptyString)) as [->|Hne];
    [apply find_assembly_aux_empty|].
  destruct selector as [|c selector]; [done|].
  cbn [String.length find_assembly_aux]. rewrite decide_False by done.
  cbv zeta. destruct (list_find _ _) as [[k a]|]; [|done].
  pose proof (rest_shorter (String c selector) Hne) as Hlt.
  cbn [String.length] in Hlt.
  f_equal. apply find_assembly_aux_fuel; lia.
Qed.

Lemma find_assembly_empty (self : MAssembly) :
  find_assembly self EmptyString = Some ([], self).
Proof. apply find_assembly_aux_empty. Qed.

(** ** References *)

Lemma node_at_candidate (self a : MAssembly) (k : nat) (p : ref) :
  (self :: children self) !! k = Some a ->
  node_at (candidate_ref k ++ p) self = node_at p a.
Proof.
  destruct k as [|i]; simpl.
  - by intros [= ->].
  - by intros ->.
Qed.

(** The reference [find_assembly] returns designates the node it returns. *)
Lemma find_assembly_node (self : MAssembly) (selector : string) (p : ref) (n : MAssembly) :
  find_assembly self selector = Some (p, n) -> node_at p self = Some n.
Proof.
  unfold find_assembly. generalize (String.length selector) as fuel.
  intros fuel. revert self selector p n.
  induction fuel as [|fuel IH]; intros self selector p n;
    cbn [find_assembly_aux]; cbv zeta.
  - destruct (decide _); [|done]. by intros [= <- <-].
  - destruct (decide _); [by intros [= <- <-]|].
    destruct (list_find _ _) as [[k a]|] eqn:Hfind; [|done].
    destruct (find_assembly_aux fuel a _) as [[q m]|] eqn:Hrec; [|done].
    simpl. intros [= <- <-].
    apply list_find_Some in Hfind as (Hk & _ & _).
    rewrite (node_at_candidate _ _ _ _ Hk). by apply IH in Hrec.
Qed.

(** ** Path resolution *)

(** One step of [find_assembly] on a selector made of well-formed
    segments: the first candidate bearing the first segment is entered
    with the remaining segments. *)
Lemma find_assembly_step (self : MAssembly) (seg : string) (segs : list string) :
  segment seg -> Forall segment segs ->
  find_assembly self (join ">" (seg :: segs)) =
    match list_find (fun a => name a = seg) (self :: children self) with
    | Some (k, a) =>
        (fun r => (candidate_ref k ++ r.1, r.2)) <$> find_assembly a (join ">" segs)
    | None => None
    end.
Proof.
  intros [Hne Hgt] Hsegs. rewrite find_assembly_unfold.
  rewrite decide_False by by apply join_segments_not_empty.
  cbv zeta. unfold gt. rewrite split_join; [done|done|].
  constructor; [done|]. eapply Forall_impl; [exact Hsegs|]. by intros s [_ Hs].
Qed.

Lemma name_path_node (self : MAssembly) (segs : list string) (p : ref) (n : MAssembly) :
  name_path self segs p n -> node_at p self = Some n.
Proof.
  induction 1 as [self|self seg segs k a p n Hk _ _ _ IH]; [done|].
  by rewrite (node_at_candidate _ _ _ _ Hk).
Qed.

(** C5. [find_assembly] on the empty selector returns the node it is
    called on, and a
    name path whose segments are each borne by exactly one of the
    candidates checked at that step resolves, once joined with [>], to
    exactly the node it leads to. *)
Theorem find_assembly_name_path (self : MAssembly) (segs : list string)
    (p : ref) (n : MAssembly) :
  Forall segment segs ->
  name_path self segs p n ->
  find_assembly self EmptyString = Some ([], self) /\
  find_assembly self (join ">" segs) = Some (p, n) /\
  node_at p self = Some n.
Proof.
  intros Hsegs Hpath. split; [apply find_assembly_empty|].
  split; [|by eapply name_path_node].
  induction Hpath as [self|self seg segs k a p n Hk Hname Huniq Hpath IH].
  - apply find_assembly_empty.
  - apply Forall_cons in Hsegs as [Hseg Hsegs].
    rewrite find_assembly_step by done.
    assert (list_find (fun a => name a = seg) (self :: children self) = Some (k, a))
      as ->.
    { apply list_find_Some. split_and!; [done|done|].
      intros j b Hj Hlt Hb. specialize (Huniq j b Hj Hb). lia. }
    by rewrite (IH Hsegs).
Qed.

(** C6. When several children of a node bear the same name, a selector
    that is this name resolves without error to the first candidate in the
    order of the source, the node itself and then its children as they
    were added: the first of these children, unless the node itself bears
    the name. *)
Theorem find_assembly_first_sibling (self a b : MAssembly) (n : string) (i j : nat) :
  segment n ->
  i < j ->
  children self !! i = Some a -> name a = n ->
  children self !! j = Some b -> name b = n ->
  (forall i' c, i' < i -> children self !! i' = Some c -> name c <> n) ->
  (name self <> n -> find_assembly self n = Some ([i], a)) /\
  (name self = n -> find_assembly self n = Some ([], self)).
Proof.
  intros Hseg _ Ha Hna _ _ Hfirst.
  change n with (join ">" [n]) at 2 4.
  rewrite find_assembly_step by done. split; intros Hself.
  - assert (list_find (fun c => name c = n) (self :: children self) = Some (S i, a))
      as ->.
    { apply list_find_Some. split_and!; [done|done|].
      intros [|i'] c Hc Hlt; simpl in Hc.
      - by injection Hc as <-.
      - apply (Hfirst i' c); [lia|done]. }
    by rewrite find_assembly_empty.
  - assert (list_find (fun c => name c = n) (self :: children self) = Some (0, self))
      as ->.
    { apply list_find_Some. split_and!; [done|done|]. intros; lia. }
    by rewrite find_assembly_empty.
Qed.

(** ** In-place updates *)

Lemma same_attributes_refl (a : MAssembly) : same_attributes a a.
Proof. by repeat split. Qed.

(** After a node has been mutated through a reference, that reference
    designates the mutated node, and every other node of the tree keeps
    its attributes and its number of children. *)
Lemma node_at_update_at (f : MAssembly -> MAssembly) :
  (forall a, children (f a) = children a) ->
  forall (q p : ref) (self n : MAssembly),
    node_at q self = Some n ->
    exists n',
      node_at q (update_at p f self) = Some n' /\
      List.length (children n') = List.length (children n) /\
      (q = p -> n' = f n) /\
      (q <> p -> same_attributes n n').
Proof.
  intros Hf. induction q as [|i q IH]; intros p self n Hn.
  - injection Hn as <-. destruct p as [|j p]; simpl.
    + exists (f self). by rewrite Hf.
    + eexists. split; [done|]. simpl. rewrite length_alter.
      split; [done|]. split; [intros [=]|]. intros _. by repeat split.
  - simpl in Hn. destruct (children self !! i) as [c|] eqn:Hc; [|done].
    destruct p as [|j p]; simpl.
    + rewrite Hf, Hc. exists n. do 2 (split; [done|]).
      split; [intros [=]|]. intros _. apply same_attributes_refl.
    + destruct (decide (j = i)) as [->|Hji].
      * rewrite list_lookup_alter, Hc, decide_True by done. simpl.
        destruct (IH p c n Hn) as (n' & Hn' & Hlen & Heq & Hne).
        exists n'. do 2 (split; [done|]). split.
        -- intros [= ->]. by apply Heq.
        -- intros Hqp. apply Hne. congruence.
      * rewrite list_lookup_alter_ne by done. rewrite Hc.
        exists n. do 2 (split; [done|]). split.
        -- intros [= ? ?]. congruence.
        -- intros _. apply same_attributes_refl.
Qed.

(** ** assemble *)

(** C1. With both mates registered and the owner of the first one
    resolved, [assemble] returns normally and the owner's pose is, as a
    term of the pose algebra, the pose of the second mate composed with
    the inverse of the pose of the first. *)
Theorem assemble_places (self : MAssembly) (mate_obj mate_target : string)
    (e_obj e_target : MateEntry) (p : ref) (x : MAssembly) :
  dict_get (mates self) mate_obj = Some e_obj ->
  dict_get (mates self) mate_target = Some e_target ->
  find_assembly self (entry_assembly e_obj) = Some (p, x) ->
  ret (assemble mate_obj mate_target self) = Ok [] /\
  exists x',
    node_at p (post (assemble mate_obj mate_target self)) = Some x' /\
    loc x' = Location_mul (Mate_loc (entry_mate e_target))
                          (Location_inverse (Mate_loc (entry_mate e_obj))).
Proof.
  intros Hobj Htarget Hfind. unfold assemble. rewrite Hobj, Hfind, Htarget. simpl.
  split; [done|]. apply find_assembly_node in Hfind.
  destruct (node_at_update_at
              (with_loc (Location_mul (Mate_loc (entry_mate e_target))
                                      (Location_inverse (Mate_loc (entry_mate e_obj)))))
              (fun _ => eq_refl) p p self x Hfind) as (x' & Hx' & _ & Heq & _).
  exists x'. split; [done|]. by rewrite (Heq eq_refl).
Qed.

(** C8. [assemble] with both mates registered changes at most the pose of
    the node the first mate's selector resolves to: every node of the tree
    is still there with the same name, geometry, registry, mate names,
    origin, flag and number of children, and with the same pose unless it
    is that node.  When the selector does not resolve the receiver is
    unchanged and one line is printed. *)
Theorem assemble_frame (self : MAssembly) (mate_obj mate_target : string)
    (e_obj e_target : MateEntry) :
  dict_get (mates self) mate_obj = Some e_obj ->
  dict_get (mates self) mate_target = Some e_target ->
  (forall p x, find_assembly self (entry_assembly e_obj) = Some (p, x) ->
     forall q n, node_at q self = Some n ->
       exists n',
         node_at q (post (assemble mate_obj mate_target self)) = Some n' /\
         name n' = name n /\ obj n' = obj n /\ mates n' = mates n /\
         matelist n' = matelist n /\ origin n' = origin n /\
         relocated n' = relocated n /\
         List.length (children n') = List.length (children n) /\
         (q <> p -> loc n' = loc n)) /\
  (find_assembly self (entry_assembly e_obj) = None ->
     assemble mate_obj mate_target self =
       mkOutcome self [("No assembly for '" ++ mate_obj ++ "'")%string] (Ok [])).
Proof.
  intros Hobj Htarget. unfold assemble. rewrite Hobj, Htarget. split.
  - intros p x Hfind q n Hn. rewrite Hfind. simpl.
    destruct (node_at_update_at
                (with_loc (Location_mul (Mate_loc (entry_mate e_target))
                                        (Location_inverse (Mate_loc (entry_mate e_obj)))))
                (fun _ => eq_refl) q p self n Hn) as (n' & Hn' & Hlen & Heq & Hne).
    exists n'. split; [done|]. destruct (decide (q = p)) as [Hqp|Hqp].
    + rewrite (Heq Hqp). by split_and!.
    + destruct (Hne Hqp) as (? & ? & ? & ? & ? & ? & ?). by split_and!.
  - by intros ->.
Qed.

(** C9, as the code has it.  An unknown first mate name raises
    [KeyError]; so does an unknown second name once the owner of the first
    mate has been resolved; in both cases nothing is printed and the
    receiver is as it was before the call.  When the first mate is
    registered and its owner does not resolve, the second name is not
    looked up: the call prints its line and returns. *)
Theorem assemble_unknown_mate (self : MAssembly) (mate_obj mate_target : string) :
  (dict_get (mates self) mate_obj = None ->
     assemble mate_obj mate_target self =
       mkOutcome self [] (Raise (KeyError mate_obj))) /\
  (forall e_obj p x,
     dict_get (mates self) mate_obj = Some e_obj ->
     find_assembly self (entry_assembly e_obj) = Some (p, x) ->
     dict_get (mates self) mate_target = None ->
     assemble mate_obj mate_target self =
       mkOutcome self [] (Raise (KeyError mate_target))) /\
  (forall e_obj,
     dict_get (mates self) mate_obj = Some e_obj ->
     find_assembly self (entry_assembly e_obj) = None ->
     assemble mate_obj mate_target self =
       mkOutcome self [("No assembly for '" ++ mate_obj ++ "'")%string] (Ok [])).
Proof.
  unfold assemble. split_and!.
  - by intros ->.
  - intros e_obj p x -> -> ->. done.
  - by intros e_obj -> ->.
Qed.

(** ** mate *)

Lemma mate_unresolved (self : MAssembly) (mate_name selector : string) (m : Mate)
    (is_origin : bool) :
  find_assembly self selector = None ->
  mate mate_name selector m is_origin self = mkOutcome self [] (Ok []).
Proof. unfold mate. by intros ->. Qed.

(** ** Loops over children *)

Lemma for_each_cons {A : Type} (f : A -> A * result unit) (x : A) (l : list A) :
  for_each f (x :: l) =
    match f x with
    | (x', Ok _) => let '(l'', r) := for_each f l in (x' :: l'', r)
    | (x', Raise e) => (x' :: l, Raise e)
    end.
Proof. done. Qed.

Lemma for_each_Ok_inv {A : Type} (f : A -> A * result unit) (l l' : list A) (u : unit) :
  for_each f l = (l', Ok u) -> Forall2 (fun x x' => f x = (x', Ok tt)) l l'.
Proof.
  destruct u. revert l'. induction l as [|x l IH]; intros l'.
  - intros [= <-]. constructor.
  - rewrite for_each_cons. destruct (f x) as [x' [[]|e]] eqn:Hx; [|done].
    destruct (for_each f l) as [l'' [[]|e]] eqn:Hl; [|done].
    intros [= <-]. constructor; [done|]. by apply IH.
Qed.

Lemma for_each_Ok_intro {A : Type} (f : A -> A * result unit) (l : list A) :
  Forall (fun x => exists x', f x = (x', Ok tt)) l ->
  exists l', for_each f l = (l', Ok tt).
Proof.
  induction 1 as [|x l [x' Hx] _ [l' Hl]]; [by exists []|].
  exists (x' :: l'). by rewrite for_each_cons, Hx, Hl.
Qed.

Lemma for_each_Raise_inv {A : Type} (f : A -> A * result unit) (l l' : list A) (e : exn) :
  for_each f l = (l', Raise e) -> exists x x', x ∈ l /\ f x = (x', Raise e).
Proof.
  revert l'. induction l as [|x l IH]; intros l'; [done|].
  rewrite for_each_cons. destruct (f x) as [x' [[]|e']] eqn:Hx.
  - destruct (for_each f l) as [l'' r] eqn:Hl. intros [= <- ->].
    destruct (IH _ eq_refl) as (y & y' & Hy & Hfy).
    exists y, y'. split; [by right|done].
  - intros [= <- <-]. exists x, x'. split; [by left|done].
Qed.

(** Whatever the outcome, the loop leaves as many elements as it found,
    each related to the one it replaces by any reflexive relation the
    body respects. *)
Lemma for_each_Forall2 {A : Type} (f : A -> A * result unit) (R : A -> A -> Prop)
    (l l' : list A) (r : result unit) :
  (forall x, R x x) ->
  Forall (fun x => forall x' r', f x = (x', r') -> R x x') l ->
  for_each f l = (l', r) -> Forall2 R l l'.
Proof.
  intros Hrefl Hall. revert l' r.
  induction Hall as [|x l Hx _ IH]; intros l' r.
  - intros [= <- <-]. constructor.
  - rewrite for_each_cons. destruct (f x) as [x' [[]|e]] eqn:Hfx.
    + destruct (for_each f l) as [l'' r''] eqn:Hl. intros [= <- <-].
      constructor; [by eapply Hx|]. by eapply IH.
    + intros [= <- <-]. constructor; [by eapply Hx|].
      clear -Hrefl. induction l; constructor; auto.
Qed.

(** ** set_origin *)

Lemma set_origin_unfold (self : MAssembly) :
  set_origin self =
    match recentre self with
    | Raise e => (self, Raise e)
    | Ok self1 =>
        let '(cs, r) := for_each set_origin (children self) in
        (with_children cs self1, r)
    end.
Proof. by destruct self. Qed.

Lemma recentre_Ok (n m : MAssembly) :
  recentre n = Ok m ->
  children m = children n /\ name m = name n /\ mates m = mates n /\
  matelist m = matelist n /\ origin m = origin n /\ relocated m = relocated n /\
  match origin n with
  | Some o =>
      loc m = Location_identity /\
      exists w, obj n = Some w /\
        obj m = Some (Workplane_new
                        (Shape_moved (Workplane_val w) (Location_inverse (Mate_loc o))))
  | None => loc m = loc n /\ obj m = obj n
  end.
Proof.
  unfold recentre. destruct (origin n) as [o|] eqn:Ho.
  - destruct (obj n) as [w|] eqn:Hw; [|done]. intros [= <-]. simpl.
    split_and!; try done. by exists w.
  - intros [= <-]. rewrite Ho. by split_and!.
Qed.

Lemma recentre_Raise (n : MAssembly) (e : exn) :
  recentre n = Raise e -> e = AttributeError /\ origin n <> None /\ obj n = None.
Proof.
  unfold recentre. destruct (origin n); [|done]. destruct (obj n); [done|].
  by intros [= <-].
Qed.

(** When the pass returns, every node has been recentred: the node now
    at a reference has the attributes [recentre] gives the node that was
    there. *)
Lemma set_origin_Ok (a : MAssembly) :
  forall a', set_origin a = (a', Ok tt) ->
  forall q n, node_at q a = Some n ->
  exists m n', recentre n = Ok m /\ node_at q a' = Some n' /\ same_attributes m n'.
Proof.
  induction a as [nm o l cs ms ml og r IH] using MAssembly_tree_ind. intros a' Hrun q n Hn.
  rewrite set_origin_unfold in Hrun.
  destruct (recentre _) as [a1|e] eqn:Hhere; [|done].
  cbn [children] in Hrun.
  destruct (for_each set_origin cs) as [cs' [[]|e]] eqn:Hloop; [|done].
  injection Hrun as <-. apply for_each_Ok_inv in Hloop.
  destruct q as [|i q].
  - injection Hn as <-. exists a1, (with_children cs' a1).
    split_and!; [done|done|]. by repeat split.
  - cbn [node_at children with_children] in Hn |- *.
    destruct (cs !! i) as [c|] eqn:Hc; [|done].
    destruct (Forall2_lookup_l _ _ _ _ _ Hloop Hc) as (c' & Hc' & Hrun).
    rewrite Forall_lookup in IH. rewrite Hc'. by eapply IH.
Qed.

Lemma set_origin_root (a a' : MAssembly) (r : result unit) :
  set_origin a = (a', r) ->
  name a' = name a /\ mates a' = mates a /\ matelist a' = matelist a /\
  origin a' = origin a /\ relocated a' = relocated a.
Proof.
  rewrite set_origin_unfold. destruct (recentre a) as [a1|e] eqn:Hhere.
  - destruct (for_each _ _) as [cs' r']. intros [= <- _].
    apply recentre_Ok in Hhere as (_ & ? & ? & ? & ? & ? & _). by split_and!.
  - by intros [= <- _].
Qed.

Lemma skeleton_unfold (a : MAssembly) :
  skeleton a =
    mkMAssembly (name a) None Location_identity (map skeleton (children a)) [] []
                (origin a) false.
Proof. by destruct a. Qed.

(** The pass changes neither the names, nor the shape of the tree, nor the
    origins. *)
Lemma set_origin_skeleton (a : MAssembly) :
  forall a' r, set_origin a = (a', r) -> skeleton a' = skeleton a.
Proof.
  induction a as [nm o l cs ms ml og r0 IH] using MAssembly_tree_ind. intros a' r.
  rewrite set_origin_unfold. destruct (recentre _) as [a1|e] eqn:Hhere.
  - cbn [children]. destruct (for_each set_origin cs) as [cs' r'] eqn:Hloop.
    intros [= <- _].
    apply recentre_Ok in Hhere as (_ & Hname & _ & _ & Horigin & _).
    rewrite !skeleton_unfold. cbn [name origin children with_children] in *.
    rewrite Hname, Horigin. f_equal.
    apply (for_each_Forall2 _ (fun c c' => skeleton c' = skeleton c)) in Hloop;
      [|done|done].
    clear IH. induction Hloop as [|c c' cs cs' Hc _ IHl]; [done|].
    simpl. by rewrite Hc, IHl.
  - by intros [= <- _].
Qed.

Lemma origins_have_obj_child (a c : MAssembly) (i : nat) :
  children a !! i = Some c -> origins_have_obj a -> origins_have_obj c.
Proof.
  intros Hc Ha p n Hn. apply (Ha (i :: p)). simpl. by rewrite Hc.
Qed.

(** The pass returns when every node with an origin owns a geometry. *)
Lemma set_origin_total (a : MAssembly) :
  origins_have_obj a -> exists a', set_origin a = (a', Ok tt).
Proof.
  induction a as [nm o l cs ms ml og r IH] using MAssembly_tree_ind. intros Hall.
  rewrite set_origin_unfold.
  destruct (recentre _) as [a1|e] eqn:Hhere.
  - cbn [children].
    destruct (for_each_Ok_intro set_origin cs) as [cs' ->]; [|by eexists].
    apply Forall_lookup. intros i c Hc. rewrite Forall_lookup in IH.
    apply (IH i c Hc).
    exact (origins_have_obj_child (mkMAssembly nm o l cs ms ml og r) c i Hc Hall).
  - apply recentre_Raise in Hhere as (_ & Horigin & Hobj).
    by destruct (Hall [] _ eq_refl Horigin).
Qed.

(** The only exception the pass raises is the one of [None.val()]. *)
Lemma set_origin_Raise (a : MAssembly) :
  forall a' e, set_origin a = (a', Raise e) -> e = AttributeError.
Proof.
  induction a as [nm o l cs ms ml og r IH] using MAssembly_tree_ind. intros a' e.
  rewrite set_origin_unfold. destruct (recentre _) as [a1|e1] eqn:Hhere.
  - cbn [children]. destruct (for_each set_origin cs) as [cs' r'] eqn:Hloop.
    intros [= _ ->]. apply for_each_Raise_inv in Hloop as (c & c' & Hc & Hrun).
    rewrite Forall_forall in IH. by eapply IH.
  - intros [= _ <-]. by apply recentre_Raise in Hhere as [-> _].
Qed.

(** A node with an origin and no geometry makes the pass raise. *)
Lemma set_origin_missing_obj (a : MAssembly) (p : ref) (n : MAssembly) :
  node_at p a = Some n -> origin n <> None -> obj n = None ->
  exists a', set_origin a = (a', Raise AttributeError).
Proof.
  intros Hn Horigin Hobj. destruct (set_origin a) as [a' [[]|e]] eqn:Hrun.
  - destruct (set_origin_Ok _ _ Hrun _ _ Hn) as (m & _ & Hm & _).
    unfold recentre in Hm. rewrite Hobj in Hm. by destruct (origin n).
  - exists a'. by rewrite (set_origin_Raise _ _ _ Hrun).
Qed.

(** ** Resolution depends on the skeleton only *)

Lemma name_skeleton (a : MAssembly) : name (skeleton a) = name a.
Proof. by destruct a. Qed.

Lemma origin_skeleton (a : MAssembly) : origin (skeleton a) = origin a.
Proof. by destruct a. Qed.

Lemma children_skeleton (a : MAssembly) :
  children (skeleton a) = skeleton <$> children a.
Proof. by destruct a. Qed.

Lemma find_assembly_aux_skeleton (fuel : nat) :
  forall (a : MAssembly) (selector : string),
    find_assembly_aux fuel (skeleton a) selector =
      (fun r => (r.1, skeleton r.2)) <$> find_assembly_aux fuel a selector.
Proof.
  induction fuel as [|fuel IH]; intros a selector;
    cbn [find_assembly_aux]; cbv zeta.
  - by destruct (decide _).
  - destruct (decide _); [done|].
    change (skeleton a :: children (skeleton a))
      with ((fun x => x :: children x) (skeleton a)).
    cbv beta. rewrite children_skeleton.
    change (skeleton a :: (skeleton <$> children a))
      with (skeleton <$> (a :: children a)).
    rewrite list_find_fmap.
    rewrite (list_find_ext _ (fun x => name x = hd EmptyString (split gt selector)));
      [|intros x; simpl; by rewrite name_skeleton].
    destruct (list_find _ _) as [[k b]|]; [|done]. simpl. rewrite IH.
    by destruct (find_assembly_aux fuel b _) as [[q m]|].
Qed.

Lemma find_assembly_same_skeleton (a b : MAssembly) (selector : string)
    (p : ref) (n : MAssembly) :
  skeleton a = skeleton b ->
  find_assembly a selector = Some (p, n) ->
  exists n', find_assembly b selector = Some (p, n') /\ origin n' = origin n.
Proof.
  unfold find_assembly. intros Hskel Hfind.
  pose proof (find_assembly_aux_skeleton (String.length selector) a selector) as Ha.
  pose proof (find_assembly_aux_skeleton (String.length selector) b selector) as Hb.
  rewrite Hskel, Hb, Hfind in Ha.
  destruct (find_assembly_aux _ b _) as [[q m]|]; [|done].
  injection Ha as -> Hm. exists m. split; [done|].
  by rewrite <- (origin_skeleton m), Hm, origin_skeleton.
Qed.

Lemma with_mates_same (a : MAssembly) : with_mates (mates a) a = a.
Proof. by destruct a. Qed.

Lemma skeleton_with_mates (ms : list (string * MateEntry)) (a : MAssembly) :
  skeleton (with_mates ms a) = skeleton a.
Proof. by destruct a. Qed.

(** ** The loop over the registry *)

(** The loop assigns to registry values only. *)
Lemma relocate_items_mates (items : list (string * MateEntry)) :
  forall i self self' r,
    relocate_items items i self = (self', r) ->
    self' = with_mates (mates self') self /\
    List.length (mates self') = List.length (mates self).
Proof.
  induction items as [|[k v] items IH]; intros i self self' r; simpl.
  - intros [= <- _]. by rewrite with_mates_same.
  - destruct (find_assembly self _) as [[p assy]|].
    + intros Hrun. apply IH in Hrun as [Hself' Hlen].
      destruct (origin assy) as [o|]; [|done].
      simpl in Hlen. rewrite length_insert in Hlen. split; [|done].
      rewrite Hself' at 1. by destruct self.
    + intros [= <- _]. by rewrite with_mates_same.
Qed.

(** When the loop returns, every entry it visited has been resolved
    against the tree, and holds its mate moved by the inverse of the pose
    of the owner's origin when the owner has one, its mate as it was
    otherwise; the entries before the first one visited are as they
    were. *)
Lemma relocate_items_Ok (items : list (string * MateEntry)) :
  forall i self self',
    relocate_items items i self = (self', Ok tt) ->
    (forall j kv, items !! j = Some kv -> mates self !! (i + j) = Some kv) ->
    (forall j k v, items !! j = Some (k, v) ->
       exists p owner,
         find_assembly self (entry_assembly v) = Some (p, owner) /\
         mates self' !! (i + j) =
           Some (k, match origin owner with
                    | Some o =>
                        mkMateEntry
                          (Mate_moved (entry_mate v) (Location_inverse (Mate_loc o)))
                          (entry_assembly v)
                    | None => v
                    end)) /\
    (forall j, j < i -> mates self' !! j = mates self !! j).
Proof.
  induction items as [|[k0 v0] items IH]; intros i self self'.
  - intros [= <-] _. split; [by intros ? ? ? ?|done].
  - cbn [relocate_items].
    destruct (find_assembly self _) as [[p0 assy]|] eqn:Hfind; [|done].
    set (self1 := match origin assy with Some o => _ | None => self end).
    intros Hrun Hsnap.
    assert (Hskel : skeleton self1 = skeleton self).
    { subst self1. destruct (origin assy); [apply skeleton_with_mates|done]. }
    assert (Hother : forall j, j <> i -> mates self1 !! j = mates self !! j).
    { intros j Hj. subst self1. destruct (origin assy); [|done].
      simpl. by rewrite list_lookup_insert_ne. }
    destruct (IH (S i) self1 self' Hrun) as [Hvisited Hbefore].
    { intros j kv Hj. rewrite Hother by lia.
      replace (S i + j) with (i + S j) by lia. by apply Hsnap. }
    split.
    + intros [|j] k v Hj.
      * injection Hj as -> ->. exists p0, assy. split; [done|].
        rewrite Hbefore by lia. replace (i + 0) with i by lia.
        pose proof (Hsnap 0 _ eq_refl) as Hi.
        replace (i + 0) with i in Hi by lia.
        subst self1. destruct (origin assy) as [o|]; [|done].
        simpl. apply list_lookup_insert_eq. by eapply lookup_lt_Some.
      * destruct (Hvisited j k v Hj) as (p & owner1 & Hfind1 & Hentry).
        destruct (find_assembly_same_skeleton _ _ _ _ _ Hskel Hfind1)
          as (owner & Howner & Horigin).
        exists p, owner. split; [done|]. rewrite Horigin.
        by replace (i + S j) with (S i + j) by lia.
    + intros j Hj. rewrite Hbefore by lia. apply Hother. lia.
Qed.

Lemma relocate_items_total (items : list (string * MateEntry)) :
  forall i self,
    (forall j k v, items !! j = Some (k, v) ->
       is_Some (find_assembly self (entry_assembly v))) ->
    exists self', relocate_items items i self = (self', Ok tt).
Proof.
  induction items as [|[k0 v0] items IH]; intros i self Hres; [by eexists|].
  cbn [relocate_items].
  destruct (Hres 0 k0 v0 eq_refl) as [[p0 assy] ->].
  apply IH. intros j k v Hj.
  destruct (Hres (S j) k v Hj) as [[p owner] Hfind].
  destruct (find_assembly_same_skeleton self
              (match origin assy with
               | Some o =>
                   with_mates
                     (<[i := (k0, mkMateEntry
                                    (Mate_moved (entry_mate v0)
                                                (Location_inverse (Mate_loc o)))
                                    (entry_assembly v0))]> (mates self)) self
               | None => self
               end) _ _ _ ltac:(by destruct (origin assy), self) Hfind)
    as (owner' & -> & _).
  by eexists.
Qed.

(** ** relocate *)

Lemma relocate_refused (self : MAssembly) :
  relocated self = true ->
  relocate self = mkOutcome self ["already relocated"] (Ok tt).
Proof. unfold relocate. by intros ->. Qed.

Lemma relocate_Ok_inv (self self' : MAssembly) (out : list string) :
  relocated self = false ->
  relocate self = mkOutcome self' out (Ok tt) ->
  exists self1 self2,
    set_origin self = (self1, Ok tt) /\
    relocate_items (mates self1) 0 self1 = (self2, Ok tt) /\
    self' = with_relocated true self2.
Proof.
  unfold relocate. intros ->.
  destruct (set_origin self) as [self1 [[]|e]] eqn:Hpass; [|done].
  destruct (relocate_items _ _ _) as [self2 [[]|e]] eqn:Hloop; [|done].
  intros [= <- _]. by exists self1, self2.
Qed.

(** The call returns when every node with an origin owns a geometry and
    every selector of the registry resolves. *)
Lemma relocate_total (self : MAssembly) :
  relocated self = false ->
  origins_have_obj self ->
  (forall i k v, mates self !! i = Some (k, v) ->
     is_Some (find_assembly self (entry_assembly v))) ->
  exists self', relocate self = mkOutcome self' [] (Ok tt).
Proof.
  intros Hflag Hobj Hres. unfold relocate. rewrite Hflag.
  destruct (set_origin_total self Hobj) as [self1 Hpass]. rewrite Hpass.
  destruct (set_origin_root _ _ _ Hpass) as (_ & Hmates & _).
  destruct (relocate_items_total (mates self1) 0 self1) as [self2 ->];
    [|by eexists].
  intros j k v Hj. rewrite Hmates in Hj.
  destruct (Hres j k v Hj) as [[p owner] Hfind].
  destruct (find_assembly_same_skeleton self self1 _ _ _
              (eq_sym (set_origin_skeleton _ _ _ Hpass)) Hfind) as (owner' & -> & _).
  by eexists.
Qed.

(** C2. When the first [relocate] has returned, a node that has an origin
    has the identity as its pose and, as its geometry, the workplane of
    the geometry it had moved by the inverse of the pose of the origin; a
    node without origin has the pose and the geometry it had. *)
Theorem relocate_recentres (self self' : MAssembly) (out : list string) :
  relocated self = false ->
  relocate self = mkOutcome self' out (Ok tt) ->
  forall q n, node_at q self = Some n ->
    exists n',
      node_at q self' = Some n' /\
      match origin n with
      | Some o =>
          loc n' = Location_identity /\
          exists w, obj n = Some w /\
            obj n' = Some (Workplane_new
                             (Shape_moved (Workplane_val w)
                                          (Location_inverse (Mate_loc o))))
      | None => loc n' = loc n /\ obj n' = obj n
      end.
Proof.
  intros Hflag Hrun q n Hn.
  destruct (relocate_Ok_inv _ _ _ Hflag Hrun) as (self1 & self2 & Hpass & Hloop & ->).
  destruct (set_origin_Ok _ _ Hpass _ _ Hn) as (m & n1 & Hm & Hn1 & Hattr).
  apply relocate_items_mates in Hloop as [-> _].
  apply recentre_Ok in Hm as (_ & _ & _ & _ & _ & _ & Hm).
  destruct Hattr as (_ & Hobj & Hloc & _).
  assert (exists n', node_at q (with_relocated true (with_mates (mates self2) self1))
                     = Some n' /\ loc n' = loc n1 /\ obj n' = obj n1)
    as (n' & Hn' & Hloc' & Hobj').
  { destruct q as [|i q]; [|by exists n1].
    injection Hn1 as <-. by eexists. }
  exists n'. split; [done|]. rewrite Hloc', Hobj', <- Hloc, <- Hobj.
  destruct (origin n); [|done]. destruct Hm as (? & w & ? & ?). eauto.
Qed.

(** C3. When the first [relocate] has returned, every registry entry is
    at its place under its key; the selector of the entry resolves to an
    owner; the entry holds its former mate moved by the inverse of the pose
    of the owner's origin when the owner has one, and is unchanged when it
    has none. *)
Theorem relocate_reexpresses_mates (self self' : MAssembly) (out : list string) :
  relocated self = false ->
  relocate self = mkOutcome self' out (Ok tt) ->
  List.length (mates self') = List.length (mates self) /\
  forall i k v, mates self !! i = Some (k, v) ->
    exists p owner,
      find_assembly self (entry_assembly v) = Some (p, owner) /\
      mates self' !! i =
        Some (k, match origin owner with
                 | Some o =>
                     mkMateEntry
                       (Mate_moved (entry_mate v) (Location_inverse (Mate_loc o)))
                       (entry_assembly v)
                 | None => v
                 end).
Proof.
  intros Hflag Hrun.
  destruct (relocate_Ok_inv _ _ _ Hflag Hrun) as (self1 & self2 & Hpass & Hloop & ->).
  destruct (set_origin_root _ _ _ Hpass) as (_ & Hmates & _).
  pose proof (set_origin_skeleton _ _ _ Hpass) as Hskel.
  destruct (relocate_items_mates _ _ _ _ _ Hloop) as [_ Hlen].
  split; [simpl; by rewrite Hlen, Hmates|].
  intros i k v Hi.
  destruct (relocate_items_Ok _ _ _ _ Hloop (fun j kv H => H)) as [Hvisited _].
  rewrite <- Hmates in Hi.
  destruct (Hvisited i k v Hi) as (p & owner1 & Hfind1 & Hentry).
  destruct (find_assembly_same_skeleton _ _ _ _ _ Hskel Hfind1)
    as (owner & Howner & Horigin).
  exists p, owner. split; [done|]. by rewrite Horigin.
Qed.

(** C4. Once [relocate] has returned, the flag is set, and a second call
    prints one line, returns normally and leaves the whole receiver as the
    first call left it. *)
Theorem relocate_twice (self self1 : MAssembly) (out : list string) :
  relocate self = mkOutcome self1 out (Ok tt) ->
  relocated self1 = true /\
  relocate self1 = mkOutcome self1 ["already relocated"] (Ok tt).
Proof.
  intros Hrun. assert (relocated self1 = true) as Hflag.
  { destruct (relocated self) eqn:Hself.
    - rewrite (relocate_refused _ Hself) in Hrun. by injection Hrun as <-.
    - by destruct (relocate_Ok_inv _ _ _ Hself Hrun) as (? & ? & _ & _ & ->). }
  split; [done|]. by apply relocate_refused.
Qed.

(** C10. [set_origin] returns when every node with an origin owns a
    geometry; a node with an origin and no geometry makes it raise
    [AttributeError], and with it the first [relocate], which leaves the
    flag unset. *)
Theorem set_origin_needs_obj (self : MAssembly) :
  (origins_have_obj self -> exists self', set_origin self = (self', Ok tt)) /\
  (forall p n,
     node_at p self = Some n -> origin n <> None -> obj n = None ->
     (exists self', set_origin self = (self', Raise AttributeError)) /\
     (relocated self = false ->
        ret (relocate self) = Raise AttributeError /\
        relocated (post (relocate self)) = false)).
Proof.
  split; [apply set_origin_total|]. intros p n Hn Horigin Hobj.
  destruct (set_origin_missing_obj _ _ _ Hn Horigin Hobj) as [self' Hpass].
  split; [by exists self'|]. intros Hflag. unfold relocate.
  rewrite Hflag, Hpass. simpl.
  by destruct (set_origin_root _ _ _ Hpass) as (_ & _ & _ & _ & ->).
Qed.

End Properties.

(** ** The properties at concrete assemblies *)

Lemma assemble_places_witness :
  ret (@assemble line_kernel "wristL" "wristR" arms) = Ok [] /\
  exists x',
    node_at [0] (post (@assemble line_kernel "wristL" "wristR" arms)) = Some x' /\
    loc x' = 10%Z.
Proof.
  exact (@assemble_places line_kernel arms "wristL" "wristR"
           (entry 0%Z "armL") (entry 10%Z "armR") [0]
           (part "armL" (Some 5%Z) 1%Z [] [] ["wristL"] None false)
           eq_refl eq_refl eq_refl).
Defined.

Lemma relocate_recentres_witness :
  exists n',
    node_at [1] (post (@relocate line_kernel bench)) = Some n' /\
    loc n' = 0%Z /\
    exists w, Some 7%Z = Some w /\ obj n' = Some (w + - 4)%Z.
Proof.
  exact (@relocate_recentres line_kernel bench (post (relocate bench)) []
           eq_refl eq_refl [1]
           (part "armR" (Some 7%Z) 2%Z [part "hand" None 3%Z [] [] [] None false]
                 [] ["wrist"; "tip"] (Some 4%Z) false)
           eq_refl).
Defined.

Lemma relocate_reexpresses_mates_witness :
  List.length (mates (post (@relocate line_kernel bench))) = List.length (mates bench) /\
  forall i k v, mates bench !! i = Some (k, v) ->
    exists p owner,
      find_assembly bench (entry_assembly v) = Some (p, owner) /\
      mates (post (@relocate line_kernel bench)) !! i =
        Some (k, match origin owner with
                 | Some o => entry (entry_mate v + - o)%Z (entry_assembly v)
                 | None => v
                 end).
Proof.
  exact (@relocate_reexpresses_mates line_kernel bench (post (relocate bench)) []
           eq_refl eq_refl).
Defined.

Lemma relocate_twice_witness :
  relocated (post (@relocate line_kernel bench)) = true /\
  relocate (post (@relocate line_kernel bench)) =
    mkOutcome (post (@relocate line_kernel bench)) ["already relocated"] (Ok tt).
Proof.
  exact (@relocate_twice line_kernel bench (post (relocate bench)) [] eq_refl).
Defined.

Lemma find_assembly_name_path_witness :
  find_assembly bench0 EmptyString = Some ([], bench0) /\
  find_assembly bench0 "armR>hand" = Some ([1; 0], part "hand" None 3%Z [] [] [] None false) /\
  node_at [1; 0] bench0 = Some (part "hand" None 3%Z [] [] [] None false).
Proof.
  apply (@find_assembly_name_path line_kernel bench0 ["armR"; "hand"] [1; 0]).
  - repeat constructor; discriminate.
  - apply (name_path_step bench0 "armR" ["hand"] 2
             (part "armR" (Some 7%Z) 2%Z [part "hand" None 3%Z [] [] [] None false]
                   [] [] None false) [0]); [reflexivity|reflexivity| |].
    + intros [|[|[|j]]] b Hb Hname; simpl in Hb; try discriminate.
      * injection Hb as <-. discriminate.
      * injection Hb as <-. discriminate.
      * reflexivity.
    + apply (name_path_step _ "hand" [] 1 (part "hand" None 3%Z [] [] [] None false) []);
        [reflexivity|reflexivity| |constructor].
      intros [|[|j]] b Hb Hname; simpl in Hb; try discriminate.
      * injection Hb as <-. discriminate.
      * reflexivity.
Defined.

Lemma find_assembly_first_sibling_witness :
  (name table <> "leg" ->
     find_assembly table "leg" = Some ([1], part "leg" (Some 2%Z) 0%Z [] [] [] None false)) /\
  (name table = "leg" -> find_assembly table "leg" = Some ([], table)).
Proof.
  apply (@find_assembly_first_sibling line_kernel table
           (part "leg" (Some 2%Z) 0%Z [] [] [] None false)
           (part "leg" (Some 3%Z) 0%Z [] [] [] None false) "leg" 1 2).
  - split; [discriminate|reflexivity].
  - lia.
  - reflexivity.
  - reflexivity.
  - reflexivity.
  - reflexivity.
  - intros [|i'] c Hlt Hc; [|lia].
    injection Hc as <-. discriminate.
Defined.

Lemma assemble_frame_witness :
  (forall p x, find_assembly arms "armL" = Some (p, x) ->
     forall q n, node_at q arms = Some n ->
       exists n',
         node_at q (post (@assemble line_kernel "wristL" "wristR" arms)) = Some n' /\
         name n' = name n /\ obj n' = obj n /\ mates n' = mates n /\
         matelist n' = matelist n /\ origin n' = origin n /\
         relocated n' = relocated n /\
         List.length (children n') = List.length (children n) /\
         (q <> p -> loc n' = loc n)) /\
  (find_assembly arms "armL" = None ->
     @assemble line_kernel "wristL" "wristR" arms =
       mkOutcome arms ["No assembly for 'wristL'"] (Ok [])).
Proof.
  exact (@assemble_frame line_kernel arms "wristL" "wristR"
           (entry 0%Z "armL") (entry 10%Z "armR") eq_refl eq_refl).
Defined.

Lemma assemble_unknown_mate_witness :
  @assemble line_kernel "elbow" "wristR" arms =
    mkOutcome arms [] (Raise (KeyError "elbow")) /\
  @assemble line_kernel "wristL" "elbow" arms =
    mkOutcome arms [] (Raise (KeyError "elbow")) /\
  @assemble line_kernel "A" "wristR" stale =
    mkOutcome stale ["No assembly for 'A'"] (Ok []).
Proof.
  split_and!.
  - exact (proj1 (@assemble_unknown_mate line_kernel arms "elbow" "wristR") eq_refl).
  - exact (proj1 (proj2 (@assemble_unknown_mate line_kernel arms "wristL" "elbow"))
             (entry 0%Z "armL") [0]
             (part "armL" (Some 5%Z) 1%Z [] [] ["wristL"] None false)
             eq_refl eq_refl eq_refl).
  - exact (proj2 (proj2 (@assemble_unknown_mate line_kernel stale "A" "wristR"))
             (entry 0%Z "gone") eq_refl eq_refl).
Defined.

(** C9 as stated fails: the second mate name, ["B"], is not in the
    registry, and the call does not raise; it prints the line of the
    unresolved owner and returns. *)
Lemma assemble_unknown_target_not_raised :
  dict_get (mates stale) "B" = None /\
  @assemble line_kernel "A" "B" stale =
    mkOutcome stale ["No assembly for 'A'"] (Ok []).
Proof. split; reflexivity. Qed.

(** C7 at a selector that does not resolve: no node of [arms0] is named
    ["armX"].  The call returns normally, the receiver is unchanged, and
    nothing is printed. *)
Theorem mate_unresolved_silent :
  find_assembly arms0 "armX" = None /\
  @mate line_kernel "elbow" "armX" 0%Z true arms0 = mkOutcome arms0 [] (Ok []).
Proof. split; reflexivity. Qed.

Lemma bench_origins_have_obj : origins_have_obj bench.
Proof.
  intros p n Hn Horigin.
  destruct p as [|[|[|i]] p]; simpl in Hn; try discriminate.
  - injection Hn as <-. by destruct Horigin.
  - destruct p; simpl in Hn; [|discriminate]. injection Hn as <-. by destruct Horigin.
  - destruct p as [|[|j] p]; simpl in Hn; try discriminate.
    + by injection Hn as <-.
    + destruct p; simpl in Hn; [|discriminate]. injection Hn as <-. by destruct Horigin.
Qed.

Lemma set_origin_needs_obj_witness :
  (exists self', @set_origin line_kernel bench = (self', Ok tt)) /\
  (exists self', @set_origin line_kernel ghost = (self', Raise AttributeError)) /\
  ret (@relocate line_kernel ghost) = Raise AttributeError /\
  relocated (post (@relocate line_kernel ghost)) = false.
Proof.
  split.
  - exact (proj1 (@set_origin_needs_obj line_kernel bench) bench_origins_have_obj).
  - pose proof (proj2 (@set_origin_needs_obj line_kernel ghost) [1; 0]
                  (part "hand" None 3%Z [] [] ["grip"] (Some 4%Z) false)
                  eq_refl ltac:(discriminate) eq_refl) as [Hpass Hcall].
    split; [exact Hpass|exact (Hcall eq_refl)].
Defined.

(** ** The source run on small inputs *)

Example split_pieces : split gt "a>>b>" = ["a"; EmptyString; "b"; EmptyString].
Proof. reflexivity. Qed.

(** The receiver is a candidate too: a selector may start with its name. *)
Example find_hand_from_root :
  fst <$> find_assembly bench0 "root>armR>hand" = Some [1; 0].
Proof. reflexivity. Qed.

(** Only the receiver and its children are candidates. *)
Example find_hand_not_a_child : find_assembly bench0 "hand" = None.
Proof. reflexivity. Qed.

(** What is left after a trailing separator is the empty selector. *)
Example find_trailing_separator : fst <$> find_assembly bench0 "armR>" = Some [1].
Proof. reflexivity. Qed.

Example mate_registers :
  mates bench =
    [("wrist", entry 4%Z "armR"); ("tip", entry 9%Z "root>armR"); ("palm", entry 6%Z "armL")].
Proof. reflexivity. Qed.

Example relocate_bench_registry :
  mates (post (@relocate line_kernel bench)) =
    [("wrist", entry 0%Z "armR"); ("tip", entry 5%Z "root>armR"); ("palm", entry 6%Z "armL")].
Proof. reflexivity. Qed.

Example relocate_bench_right_arm :
  node_at [1] (post (@relocate line_kernel bench)) =
    Some (part "armR" (Some 3%Z) 0%Z [part "hand" None 3%Z [] [] [] None false]
               [] ["wrist"; "tip"] (Some 4%Z) false).
Proof. reflexivity. Qed.

(** A later [assemble] overwrites the pose an earlier one has set. *)
Example assemble_last_write_wins :
  loc <$> node_at [0]
            (post (@assemble line_kernel "wristL" "wristL"
                     (post (@assemble line_kernel "wristL" "wristR" arms)))) =
    Some 0%Z.
Proof. reflexivity. Qed.

(** The receiver comes before its children: when it bears the name itself,
    it is the node returned. *)
Example find_receiver_first :
  fst <$> find_assembly
            (part "leg" None 0%Z
               [part "leg" (Some 2%Z) 0%Z [] [] [] None false;
                part "leg" (Some 3%Z) 0%Z [] [] [] None false]
               [] [] None false) "leg" = Some [].
Proof. reflexivity. Qed.

(** * Further properties of the source *)

Section FurtherProperties.

Context {K : Kernel} {D : Display K}.

(** ** find_assembly as a chain of first matches *)

Lemma find_assembly_first_match_iff (self : MAssembly) (segs : list string)
    (p : ref) (n : MAssembly) :
  Forall segment segs ->
  find_assembly self (join ">" segs) = Some (p, n) <-> first_match_path self segs p n.
Proof.
  intros Hsegs. split.
  - revert self p n. induction Hsegs as [|seg segs Hseg Hsegs IH]; intros self p n.
    + rewrite find_assembly_empty. intros [= <- <-]. constructor.
    + rewrite find_assembly_step by done.
      destruct (list_find _ _) as [[k a]|] eqn:Hfind; [|done].
      destruct (find_assembly a _) as [[q m]|] eqn:Hrec; [|done].
      intros [= <- <-]. apply list_find_Some in Hfind as (Hk & Hname & Hfirst).
      apply first_match_step with a; [done|done| |by apply IH].
      intros j b Hj Hlt. by apply (Hfirst j b).
  - induction 1 as [self|self seg segs k a p n Hk Hname Hfirst Hpath IH].
    + apply find_assembly_empty.
    + apply Forall_cons in Hsegs as [Hseg Hsegs].
      rewrite find_assembly_step by done.
      assert (list_find (fun a => name a = seg) (self :: children self) = Some (k, a))
        as ->.
      { apply list_find_Some. split_and!; [done|done|].
        intros j b Hj Hlt. by apply (Hfirst j b). }
      by rewrite (IH Hsegs).
Qed.

Lemma first_match_path_last (self : MAssembly) (segs : list string)
    (p : ref) (n : MAssembly) :
  first_match_path self segs p n ->
  List.length p <= List.length segs /\
  (segs <> [] -> last segs = Some (name n)).
Proof.
  induction 1 as [self|self seg segs k a p n Hk Hname Hfirst Hpath [IHlen IHlast]].
  - split; [done|]. by intros [].
  - split.
    + rewrite length_app. destruct k; simpl; lia.
    + intros _. destruct segs as [|seg' segs].
      * inversion Hpath; subst. done.
      * rewrite last_cons, IHlast; done.
Qed.

(** X1. On a selector made of well-formed segments, [find_assembly]
    returns a node exactly when the segments can be followed from the
    receiver, each one to the first candidate of [[self] + self.children]
    that bears it; the node returned is the one reached that way. *)
Theorem find_assembly_characterised (self : MAssembly) (segs : list string)
    (p : ref) (n : MAssembly) :
  Forall segment segs ->
  find_assembly self (join ">" segs) = Some (p, n) <-> first_match_path self segs p n.
Proof. apply find_assembly_first_match_iff. Qed.

(** X2. The node a selector resolves to bears the name of the last
    segment, and it lies no deeper below the receiver than the selector has
    segments. *)
Theorem find_assembly_last_segment (self : MAssembly) (segs : list string)
    (p : ref) (n : MAssembly) :
  Forall segment segs -> segs <> [] ->
  find_assembly self (join ">" segs) = Some (p, n) ->
  last segs = Some (name n) /\ List.length p <= List.length segs.
Proof.
  intros Hsegs Hne Hfind. apply find_assembly_first_match_iff in Hfind; [|done].
  apply first_match_path_last in Hfind as [Hlen Hlast]. split; [by apply Hlast|done].
Qed.

Lemma string_app_assoc (s1 s2 s3 : string) :
  ((s1 ++ s2) ++ s3 = s1 ++ (s2 ++ s3))%string.
Proof.
  induction s1 as [|c s1 IH]; [done|].
  change (String c ((s1 ++ s2) ++ s3) = String c (s1 ++ (s2 ++ s3)))%string.
  by rewrite IH.
Qed.

Lemma join_snoc_empty (segs : list string) :
  segs <> [] ->
  join ">" (segs ++ [EmptyString]) = (join ">" segs ++ ">")%string.
Proof.
  induction segs as [|seg segs IH]; [done|]. intros _.
  destruct segs as [|seg' segs]; [done|].
  change (join ">" (seg :: (seg' :: segs) ++ [EmptyString]) =
          (join ">" (seg :: seg' :: segs) ++ ">")%string).
  rewrite !join_cons by done. rewrite IH by done.
  by rewrite !string_app_assoc.
Qed.

(** One step of [find_assembly] when only the first segment is known to be
    well formed and the others are free of the separator. *)
Lemma find_assembly_step_pieces (self : MAssembly) (seg : string) (rest : list string) :
  segment seg -> Forall (fun s => has_char gt s = false) rest ->
  find_assembly self (join ">" (seg :: rest)) =
    match list_find (fun a => name a = seg) (self :: children self) with
    | Some (k, a) =>
        (fun r => (candidate_ref k ++ r.1, r.2)) <$> find_assembly a (join ">" rest)
    | None => None
    end.
Proof.
  intros [Hne Hgt] Hrest. rewrite find_assembly_unfold.
  rewrite decide_False by by apply join_segments_not_empty.
  cbv zeta. unfold gt. rewrite split_join; [done|done|]. by constructor.
Qed.

(** X3. A separator at the end of a selector is ignored: what is left after
    it is the empty selector, which denotes the node reached. *)
Theorem find_assembly_trailing_separator (self : MAssembly) (segs : list string) :
  Forall segment segs -> segs <> [] ->
  find_assembly self (join ">" segs ++ ">") = find_assembly self (join ">" segs).
Proof.
  intros Hsegs Hne. rewrite <- join_snoc_empty by done. revert self.
  induction Hsegs as [|seg segs Hseg Hsegs IH]; [done|]. intros self.
  assert (Forall (fun s => has_char gt s = false) segs) as Hfree.
  { eapply Forall_impl; [exact Hsegs|]. by intros s [_ Hs]. }
  change ((seg :: segs) ++ [EmptyString]) with (seg :: (segs ++ [EmptyString])).
  rewrite !find_assembly_step_pieces; [|done|done|done|].
  - destruct (list_find _ _) as [[k a]|]; [|done].
    destruct segs as [|seg' segs]; [done|]. by rewrite IH.
  - apply Forall_app. split; [done|]. by constructor.
Qed.

(** ** Dictionaries *)

Lemma dict_get_set_same {V : Type} (d : list (string * V)) (k : string) (v : V) :
  dict_get (dict_set d k v) k = Some v.
Proof.
  induction d as [|[k' v'] d IH]; simpl.
  - by rewrite String.eqb_refl.
  - destruct (String.eqb k' k) eqn:Hk; simpl; by rewrite Hk.
Qed.

Lemma dict_get_set_other {V : Type} (d : list (string * V)) (k k' : string) (v : V) :
  k' <> k -> dict_get (dict_set d k v) k' = dict_get d k'.
Proof.
  intros Hne. induction d as [|[k0 v0] d IH]; simpl.
  - destruct (String.eqb_spec k k'); [congruence|done].
  - destruct (String.eqb_spec k0 k) as [->|Hk0]; simpl.
    + destruct (String.eqb_spec k k'); [congruence|done].
    + by rewrite IH.
Qed.

Lemma dict_set_lookup_inv {V : Type} (d : list (string * V)) (k : string) (v : V)
    (i : nat) (k' : string) (v' : V) :
  dict_set d k v !! i = Some (k', v') -> v' = v \/ d !! i = Some (k', v').
Proof.
  revert i. induction d as [|[k0 v0] d IH]; intros i; simpl.
  - destruct i; [|done]. intros [= _ <-]. by left.
  - destruct (String.eqb k0 k).
    + destruct i; simpl; [|by right]. intros [= _ <-]. by left.
    + destruct i; simpl; [by right|]. apply IH.
Qed.

(** ** Updates through references, continued *)

Lemma update_at_ext (f g : MAssembly -> MAssembly) (p : ref) :
  (forall a, f a = g a) -> forall self, update_at p f self = update_at p g self.
Proof.
  intros Hfg. induction p as [|i p IH]; intros self; simpl; [done|].
  f_equal. apply list_alter_ext; [|done]. intros c _. apply IH.
Qed.

Lemma update_at_twice (f g : MAssembly -> MAssembly) (p : ref) :
  (forall a, children (g a) = children a) ->
  forall self, update_at p f (update_at p g self) = update_at p (fun a => f (g a)) self.
Proof.
  intros Hg. induction p as [|i p IH]; intros self; [done|].
  cbn [update_at children with_children].
  rewrite list_alter_alter_eq.
  unfold with_children; cbn [name obj loc mates matelist origin relocated].
  f_equal. apply list_alter_ext; [|done]. intros c _. apply IH.
Qed.

Lemma mates_update_at (f : MAssembly -> MAssembly) (p : ref) (self : MAssembly) :
  (forall a, mates (f a) = mates a) -> mates (update_at p f self) = mates self.
Proof. intros Hf. destruct p; simpl; [apply Hf|done]. Qed.

Lemma relocated_update_at (f : MAssembly -> MAssembly) (p : ref) (self : MAssembly) :
  (forall a, relocated (f a) = relocated a) ->
  relocated (update_at p f self) = relocated self.
Proof. intros Hf. destruct p; simpl; [apply Hf|done]. Qed.

Lemma node_at_with_mates (ms : list (string * MateEntry)) (q : ref) (self n : MAssembly) :
  node_at q self = Some n ->
  exists n1,
    node_at q (with_mates ms self) = Some n1 /\
    (q <> [] -> n1 = n) /\ (q = [] -> n1 = with_mates ms n).
Proof.
  destruct q as [|i q]; simpl.
  - intros [= <-]. by eexists.
  - intros Hn. exists n. by split_and!.
Qed.

(** ** The outline of a tree *)

Lemma outline_unfold (a : MAssembly) :
  outline a =
    mkMAssembly (name a) None Location_identity (map outline (children a)) [] [] None false.
Proof. by destruct a. Qed.

Lemma name_outline (a : MAssembly) : name (outline a) = name a.
Proof. by destruct a. Qed.

Lemma children_outline (a : MAssembly) : children (outline a) = outline <$> children a.
Proof. by destruct a. Qed.

Lemma find_assembly_aux_outline (fuel : nat) :
  forall (a : MAssembly) (selector : string),
    fst <$> find_assembly_aux fuel (outline a) selector =
      fst <$> find_assembly_aux fuel a selector.
Proof.
  induction fuel as [|fuel IH]; intros a selector;
    cbn [find_assembly_aux]; cbv zeta.
  - by destruct (decide _).
  - destruct (decide _); [done|].
    change (outline a :: children (outline a))
      with ((fun x => x :: children x) (outline a)).
    cbv beta. rewrite children_outline.
    change (outline a :: (outline <$> children a)) with (outline <$> (a :: children a)).
    rewrite list_find_fmap.
    rewrite (list_find_ext _ (fun x => name x = hd EmptyString (split gt selector)));
      [|intros x; simpl; by rewrite name_outline].
    destruct (list_find _ _) as [[k b]|]; [|done]. simpl.
    specialize (IH b (join ">" (tail (split gt selector)))).
    destruct (find_assembly_aux fuel (outline b) _) as [[q m]|],
             (find_assembly_aux fuel b _) as [[q' m']|]; simpl in *; congruence.
Qed.

(** Two trees of the same outline resolve every selector to the same
    reference. *)
Lemma find_assembly_same_outline (a b : MAssembly) (selector : string) :
  outline a = outline b ->
  fst <$> find_assembly a selector = fst <$> find_assembly b selector.
Proof.
  intros Hab. unfold find_assembly.
  by rewrite <- (find_assembly_aux_outline _ a), <- (find_assembly_aux_outline _ b), Hab.
Qed.

Lemma outline_skeleton (a : MAssembly) : outline (skeleton a) = outline a.
Proof.
  induction a as [nm o l cs ms ml og r IH] using MAssembly_tree_ind.
  rewrite skeleton_unfold, !outline_unfold. cbn [name children]. f_equal.
  rewrite map_map. apply map_ext_Forall. exact IH.
Qed.

Lemma outline_update_at (f : MAssembly -> MAssembly) (p : ref) :
  (forall a, name (f a) = name a) -> (forall a, children (f a) = children a) ->
  forall self, outline (update_at p f self) = outline self.
Proof.
  intros Hname Hchildren. induction p as [|i p IH]; intros self.
  - simpl. by rewrite !outline_unfold, Hname, Hchildren.
  - rewrite !outline_unfold. cbn [update_at name children with_children]. f_equal.
    revert i. induction (children self) as [|c cs IHcs]; intros i; [done|].
    destruct i; simpl; f_equal; [apply IH|apply IHcs].
Qed.

(** ** mate on a selector that resolves *)

(** The receiver after [mate]: the registry assigned to, then the owner
    mutated. *)
Lemma mate_resolved (self : MAssembly) (mate_name selector : string) (m : Mate)
    (is_origin : bool) (p : ref) (x : MAssembly) :
  find_assembly self selector = Some (p, x) ->
  mate mate_name selector m is_origin self =
    mkOutcome
      (update_at p
         (fun a => (if is_origin then with_origin (Some m) else id)
                     (with_matelist (matelist a ++ [mate_name]) a))
         (with_mates (dict_set (mates self) mate_name (mkMateEntry m selector)) self))
      [] (Ok []).
Proof.
  intros Hfind. unfold mate. rewrite Hfind. f_equal.
  destruct is_origin; [|done]. by rewrite update_at_twice.
Qed.

(** X4. After [mate] on a selector that resolves, the registry maps the
    name to the mate and the selector given, the name is the last of the
    owner's mate names, and the owner's origin is the mate when [is_origin]
    is set and is untouched otherwise; nothing is printed. *)
Theorem mate_resolved_registers (self : MAssembly) (mate_name selector : string) (m : Mate)
    (is_origin : bool) (p : ref) (x : MAssembly) :
  find_assembly self selector = Some (p, x) ->
  ret (mate mate_name selector m is_origin self) = Ok [] /\
  printed (mate mate_name selector m is_origin self) = [] /\
  dict_get (mates (post (mate mate_name selector m is_origin self))) mate_name =
    Some (mkMateEntry m selector) /\
  exists x',
    node_at p (post (mate mate_name selector m is_origin self)) = Some x' /\
    matelist x' = matelist x ++ [mate_name] /\
    origin x' = if is_origin then Some m else origin x.
Proof.
  intros Hfind. rewrite (mate_resolved _ _ _ _ _ _ _ Hfind). cbn [ret printed post].
  split_and!; [done|done|..].
  - rewrite mates_update_at by (intros a; by destruct is_origin).
    apply dict_get_set_same.
  - apply find_assembly_node in Hfind.
    destruct (node_at_with_mates
                (dict_set (mates self) mate_name (mkMateEntry m selector)) _ _ _ Hfind)
      as (x1 & Hx1 & Hdeep & Hroot).
    destruct (node_at_update_at
                (fun a => (if is_origin then with_origin (Some m) else id)
                            (with_matelist (matelist a ++ [mate_name]) a))
                ltac:(intros a; by destruct is_origin) p p _ x1 Hx1)
      as (x' & Hx' & _ & Heq & _).
    exists x'. split; [done|]. rewrite (Heq eq_refl).
    assert (matelist x1 = matelist x /\ origin x1 = origin x) as [Hml Hog].
    { destruct p; [rewrite (Hroot eq_refl)|rewrite Hdeep]; done. }
    destruct is_origin; simpl; by rewrite ?Hml, ?Hog.
Qed.

(** X5. [mate] moves nothing: every node keeps its name, geometry, pose,
    flag and number of children; every node but the owner keeps its mate
    names and its origin; every node but the receiver keeps its registry,
    and the receiver's registry is unchanged at every other name. *)
Theorem mate_frame (self : MAssembly) (mate_name selector : string) (m : Mate)
    (is_origin : bool) (p : ref) (x : MAssembly) :
  find_assembly self selector = Some (p, x) ->
  (forall k, k <> mate_name ->
     dict_get (mates (post (mate mate_name selector m is_origin self))) k =
       dict_get (mates self) k) /\
  (forall q n, node_at q self = Some n ->
     exists n',
       node_at q (post (mate mate_name selector m is_origin self)) = Some n' /\
       name n' = name n /\ obj n' = obj n /\ loc n' = loc n /\
       relocated n' = relocated n /\
       List.length (children n') = List.length (children n) /\
       (q <> p -> matelist n' = matelist n /\ origin n' = origin n) /\
       (q <> [] -> mates n' = mates n)).
Proof.
  intros Hfind. rewrite (mate_resolved _ _ _ _ _ _ _ Hfind). cbn [post]. split.
  - intros k Hk. rewrite mates_update_at by (intros a; by destruct is_origin).
    by apply dict_get_set_other.
  - intros q n Hn.
    destruct (node_at_with_mates
                (dict_set (mates self) mate_name (mkMateEntry m selector)) _ _ _ Hn)
      as (n1 & Hn1 & Hdeep & Hroot).
    destruct (node_at_update_at
                (fun a => (if is_origin then with_origin (Some m) else id)
                            (with_matelist (matelist a ++ [mate_name]) a))
                ltac:(intros a; by destruct is_origin) q p _ n1 Hn1)
      as (n' & Hn' & Hlen & Heq & Hne).
    exists n'. split; [done|].
    assert (name n1 = name n /\ obj n1 = obj n /\ loc n1 = loc n /\
            relocated n1 = relocated n /\ matelist n1 = matelist n /\
            origin n1 = origin n /\ children n1 = children n /\
            (q <> [] -> mates n1 = mates n))
      as (Hname & Hobj & Hloc & Hflag & Hml & Hog & Hch & Hms).
    { destruct q as [|i q].
      - rewrite (Hroot eq_refl). repeat (split; [done|]). by intros [].
      - rewrite Hdeep by done. by repeat (split; [done|]). }
    rewrite Hlen, Hch, <- Hname, <- Hobj, <- Hloc, <- Hflag, <- Hml, <- Hog.
    destruct (decide (q = p)) as [Hqp|Hqp].
    + rewrite (Heq Hqp).
      split; [by destruct is_origin|]. split; [by destruct is_origin|].
      split; [by destruct is_origin|]. split; [by destruct is_origin|].
      split; [done|]. split; [done|].
      intros Hq. rewrite <- (Hms Hq). by destruct is_origin.
    + destruct (Hne Hqp) as (Hname' & Hobj' & Hloc' & Hms' & Hml' & Hog' & Hflag').
      rewrite <- Hname', <- Hobj', <- Hloc', <- Hflag', <- Hml', <- Hog'.
      do 5 (split; [done|]). split; [done|].
      intros Hq. by rewrite <- (Hms Hq).
Qed.

End FurtherProperties.
